(** * Fourier: a shallow embedding of [fourier.hpp]

    The class template [Fourier<FftPolicy>] keeps a table of rotation factors,
    a working buffer, the coefficients of the last transform and the working
    size.  It is embedded here as a record with explicit state passing.

    Modelling conventions.
    - [double] is the real line [R]: rounding, infinities, NaN and signed
      zeros are outside the model.
    - [std::complex<double>] is a pair of reals with the operators the source
      uses written out.
    - [std::vector<T>] is a [list T]; indexed reads and writes use stdpp's
      lookup and insert.  Every index the member functions use on their own
      vectors is in range, so the out-of-range behaviour of insert (no-op)
      and of total lookup (default) is never observed.
    - [size_t] is [nat]: the products [size_ * size_] and [k * size_ + n] are
      modelled without wrap-around.
    - the caller's [double* data] is the list of the elements of the array it
      points into; a read past that array is undefined behaviour.
    - the policy class [FftPolicy] (header [fft_policy.hpp]) is a pair of
      section variables. *)

From Stdlib Require Import Reals Machin Lra Lia.
From stdpp Require Import base list.

(** ** Numbers *)

(** The constant the source writes for pi: the literal [3.141592653589793]. *)
Definition pi_d : R := (3141592653589793 / 1000000000000000)%R.

#[global] Instance R_inhabited : Inhabited R := populate 0%R.

(** [std::complex<double>]. *)
Record complex : Type := Cx { real : R; imag : R }.

Definition C0 : complex := Cx 0 0.

#[global] Instance complex_inhabited : Inhabited complex := populate C0.

(** [operator+=] on complex numbers. *)
Definition Cadd (a b : complex) : complex :=
  Cx (real a + real b) (imag a + imag b).

(** [operator*(complex<double>, double)]: both parts are scaled. *)
Definition Cscale (a : complex) (x : R) : complex :=
  Cx (real a * x) (imag a * x).

(** [operator/(complex<double>, complex<double>)]. *)
Definition Cdiv (a b : complex) : complex :=
  let d := (real b * real b + imag b * imag b)%R in
  Cx ((real a * real b + imag a * imag b) / d)
     ((imag a * real b - real a * imag b) / d).

(** [std::abs(std::complex<double>)]. *)
Definition Cabs (a : complex) : R :=
  sqrt (real a * real a + imag a * imag a).

(** [std::atan2(y, x)] on the reals. *)
Definition atan2 (y x : R) : R :=
  if Rlt_dec 0 x then atan (y / x)
  else if Rlt_dec x 0 then
    if Rle_dec 0 y then (atan (y / x) + PI)%R else (atan (y / x) - PI)%R
  else if Rlt_dec 0 y then (PI / 2)%R
  else if Rlt_dec y 0 then (- (PI / 2))%R
  else 0%R.

(** [std::arg(std::complex<double>)]. *)
Definition Carg (a : complex) : R := atan2 (imag a) (real a).

(** ** Loops and vectors *)

(** [for (size_t i = 0; i < n; ++i) body] as a state transformer. *)
Definition for_loop {St : Type} (n : nat) (body : nat -> St -> St) (s : St) : St :=
  fold_left (fun acc i => body i acc) (seq 0 n) s.

(** [std::fill(begin(v), end(v), x)]. *)
Definition fill {A : Type} (v : list A) (x : A) : list A :=
  replicate (length v) x.

(** [std::transform(begin(src), end(src), begin(dst), f)]: the first
    [length src] cells of [dst] are overwritten. *)
Definition transform {A B : Type} (f : A -> B) (src : list A) (dst : list B) : list B :=
  map f src ++ drop (length src) dst.

(** ** The engine *)

Record Fourier : Type := mkFourier {
  rotors_ : list complex;
  fouriers_ : list complex;
  data_ : list R;
  size_ : nat
}.

(** What a call of [dft] or [fft] does: it returns a [bool] and leaves a
    state, or it has read outside the caller's array. *)
Inductive outcome : Type :=
| Returns (b : bool) (s : Fourier)
| Undefined.

(** The body of [calc_rotors]. *)
Definition calc_rotors (size : nat) (rot : list complex) : list complex :=
  let base_freq := (2 * pi_d / INR size)%R in
  let rot := resize size C0 rot in
  for_loop size
    (fun k rot => <[k := Cx (cos (base_freq * INR k)) (sin (base_freq * INR k))]> rot)
    rot.

(** One turn of [data_[i] = data[i]]: the index read is recorded, and a read
    past the end of the caller's array ends the defined part of the run. *)
Definition load_body (data : list R) (i : nat)
    (st : list nat * option (list R)) : list nat * option (list R) :=
  match st with
  | (tr, Some d) =>
      match data !! i with
      | Some x => (tr ++ [i], Some (<[i := x]> d))
      | None => (tr ++ [i], None)
      end
  | (tr, None) => (tr, None)
  end.

(** Lines 96-98 of [dft], repeated as lines 140-142 of [fft]: resize, zero
    fill, copy.  The result is the list of indices read from the caller's
    array and the new [data_] (when every read was inside the array). *)
Definition load_data (size : nat) (old : list R) (data : list R)
    : list nat * option (list R) :=
  let d := resize size 0%R old in
  let d := fill d 0%R in
  for_loop size (load_body data) ([], Some d).

(** The matrix [mtx_rotors] of [dft], stored row by row. *)
Definition rotor_entry (size k n : nat) : complex :=
  let base_freq := (2 * pi_d / INR size)%R in
  Cx (cos (base_freq * INR k * INR n)) (sin (base_freq * INR k * INR n)).

Definition rotor_matrix (size : nat) : list complex :=
  for_loop size
    (fun k m => for_loop size (fun n m => <[k * size + n := rotor_entry size k n]> m) m)
    (replicate (size * size) C0).

(** The double loop [fouriers_[k] += mtx_rotors[k * size_ + n] * data_.at(n)]. *)
Definition accumulate (size : nat) (mtx : list complex) (d : list R)
    (f : list complex) : list complex :=
  for_loop size
    (fun k f =>
       for_loop size
         (fun n f => <[k := Cadd (f !!! k) (Cscale (mtx !!! (k * size + n)) (d !!! n))]> f)
         f)
    f.

(** The closing [for_each]: [value = value / complex(1.0 / size_, 0.0)]. *)
Definition scale_step (size : nat) (value : complex) : complex :=
  Cdiv value (Cx (1 / INR size) 0).

(** What [dft] adds up for coefficient [k], starting from what the cell
    holds. *)
Definition direct_sum (n : nat) (d : list R) (k : nat) (init : complex) : complex :=
  fold_left (fun acc j => Cadd acc (Cscale (rotor_entry n k j) (d !!! j)))
    (seq 0 n) init.

(** Coefficient [k] as an accepted [dft] call leaves it: the sum is started
    from what the cell held after [fouriers_.resize(size_)], then scaled. *)
Definition dft_cell (n : nat) (d : list R) (f : list complex) (k : nat) : complex :=
  scale_step n (direct_sum n d k (resize n C0 f !!! k)).

(** The coefficient the text of the specification describes: the sum over
    [n] of [matrix(k,n) * sample(n)], divided by [N]. *)
Definition normalized_sum (n : nat) (d : list R) (k : nat) : complex :=
  Cx (real (direct_sum n d k C0) / INR n) (imag (direct_sum n d k C0) / INR n).

Section Engine.

(** [FftPolicy::calc_size] and [FftPolicy::fft]; the latter is taken to read
    its two arguments without changing them.  The element type [T] of
    [fft]'s array is converted to [double] cell by cell, so the array is
    given as the list of the converted values. *)
Variable calc_size : nat -> nat.
Variable policy_fft : list R -> list complex -> list complex.

(** The constructor [Fourier(size_t size)]. *)
Definition Fourier_ctor (size : nat) : Fourier :=
  let n := calc_size size in
  mkFourier (calc_rotors n []) [] [] n.

Definition rotors (s : Fourier) : list complex := rotors_ s.
Definition size (s : Fourier) : nat := size_ s.
Definition fourier_coef (s : Fourier) : list complex := fouriers_ s.

(** The indices [dft] and [fft] read from the caller's array. *)
Definition data_reads (s : Fourier) (data : list R) (count : nat) : list nat :=
  if size_ s <? count then []
  else fst (load_data (size_ s) (data_ s) data).

Definition dft (s : Fourier) (data : list R) (count : nat) : outcome :=
  if size_ s <? count then Returns false s
  else
    match snd (load_data (size_ s) (data_ s) data) with
    | None => Undefined
    | Some d =>
        let f := resize (size_ s) C0 (fouriers_ s) in
        let mtx := rotor_matrix (size_ s) in
        let f := accumulate (size_ s) mtx d f in
        let f := map (scale_step (size_ s)) f in
        Returns true (mkFourier (rotors_ s) f d (size_ s))
    end.

Definition fft (s : Fourier) (data : list R) (count : nat) : outcome :=
  if size_ s <? count then Returns false s
  else
    match snd (load_data (size_ s) (data_ s) data) with
    | None => Undefined
    | Some d =>
        Returns true (mkFourier (rotors_ s) (policy_fft d (rotors_ s)) d (size_ s))
    end.

Definition amplifiers (s : Fourier) : list R :=
  transform Cabs (fouriers_ s) (replicate (length (fouriers_ s)) 0%R).

Definition power_spectrums (s : Fourier) : list R :=
  map (fun value => (value * value)%R) (amplifiers s).

Definition angles (s : Fourier) : list R :=
  transform Carg (fouriers_ s) (replicate (length (fouriers_ s)) 0%R).

End Engine.

(** ** States a client can reach *)

(** The engine states a client can produce: construction, then any number of
    returning [dft] and [fft] calls. *)
Inductive reachable (calc_size : nat -> nat)
    (pf : list R -> list complex -> list complex) (requested : nat)
    : Fourier -> Prop :=
| reach_ctor : reachable calc_size pf requested (Fourier_ctor calc_size requested)
| reach_dft (s : Fourier) (data : list R) (count : nat) (b : bool) (s' : Fourier) :
    reachable calc_size pf requested s ->
    dft s data count = Returns b s' ->
    reachable calc_size pf requested s'
| reach_fft (s : Fourier) (data : list R) (count : nat) (b : bool) (s' : Fourier) :
    reachable calc_size pf requested s ->
    fft pf s data count = Returns b s' ->
    reachable calc_size pf requested s'.

(** The sum of a list of samples. *)
Definition Rsum (l : list R) : R := foldr Rplus 0%R l.

(** ** Loop lemmas *)

Lemma for_loop_S {St : Type} (n : nat) (body : nat -> St -> St) (s : St) :
  for_loop (S n) body s = body n (for_loop n body s).
Proof.
  unfold for_loop. rewrite seq_S, fold_left_app. reflexivity.
Qed.

(** The invariant rule of a counted loop. *)
Lemma for_loop_inv {St : Type} (P : nat -> St -> Prop) (n : nat)
    (body : nat -> St -> St) (s : St) :
  P 0 s ->
  (forall i acc, i < n -> P i acc -> P (S i) (body i acc)) ->
  P n (for_loop n body s).
Proof.
  intros H0 Hstep.
  assert (Hall : forall m, m <= n -> P m (for_loop m body s)).
  { induction m as [|m IH]; intros Hm; [exact H0|].
    rewrite for_loop_S. apply Hstep; [lia|]. apply IH. lia. }
  apply Hall. lia.
Qed.

(** A loop that writes [g j] at index [idx j], for an injective [idx]. *)
Lemma for_loop_insert_spec {A : Type} (idx : nat -> nat) (g : nat -> A)
    (n : nat) (m0 : list A) :
  (forall j, j < n -> idx j < length m0) ->
  (forall i j, i < n -> j < n -> idx i = idx j -> i = j) ->
  let m := for_loop n (fun j m => <[idx j := g j]> m) m0 in
  length m = length m0 /\
  (forall j, j < n -> m !! idx j = Some (g j)) /\
  (forall i, (forall j, j < n -> idx j <> i) -> m !! i = m0 !! i).
Proof.
  intros Hlen Hinj.
  apply (for_loop_inv (fun t m =>
    length m = length m0 /\
    (forall j, j < t -> m !! idx j = Some (g j)) /\
    (forall i, (forall j, j < t -> idx j <> i) -> m !! i = m0 !! i))).
  - split; [reflexivity|]. split; [intros; lia|reflexivity].
  - intros t acc Ht (Hl & Hset & Hkeep). split; [|split].
    + rewrite length_insert. exact Hl.
    + intros j Hj. destruct (decide (j = t)) as [->|Hne].
      * apply list_lookup_insert_eq. rewrite Hl. apply Hlen. exact Ht.
      * rewrite list_lookup_insert_ne.
        -- apply Hset. lia.
        -- intros Heq. apply Hne. symmetry. apply Hinj; [lia|lia|exact Heq].
    + intros i Hi. rewrite list_lookup_insert_ne.
      * apply Hkeep. intros j Hj. apply Hi. lia.
      * apply Hi. lia.
Qed.

(** A loop that rewrites cell [k] from its own content, one [k] per turn. *)
Lemma for_loop_update_spec {A : Type} `{Inhabited A} (h : nat -> list A -> list A)
    (u : nat -> A -> A) (n : nat) (f0 : list A) :
  n <= length f0 ->
  (forall k f, k < n -> length f = length f0 ->
     h k f = <[k := u k (f !!! k)]> f) ->
  let f := for_loop n h f0 in
  length f = length f0 /\
  (forall k, k < n -> f !! k = Some (u k (f0 !!! k))) /\
  (forall k, n <= k -> f !! k = f0 !! k).
Proof.
  intros Hn Hh.
  apply (for_loop_inv (fun t f =>
    length f = length f0 /\
    (forall k, k < t -> f !! k = Some (u k (f0 !!! k))) /\
    (forall k, t <= k -> f !! k = f0 !! k))).
  - split; [reflexivity|]. split; [intros; lia|reflexivity].
  - intros t acc Ht (Hl & Hdone & Hrest). rewrite Hh by assumption.
    split; [|split].
    + rewrite length_insert. exact Hl.
    + intros k Hk. destruct (decide (k = t)) as [->|Hne].
      * rewrite list_lookup_insert_eq by lia.
        do 2 f_equal. rewrite !list_lookup_total_alt.
        rewrite Hrest by lia. reflexivity.
      * rewrite list_lookup_insert_ne by lia. apply Hdone. lia.
    + intros k Hk. rewrite list_lookup_insert_ne by lia. apply Hrest. lia.
Qed.

(** A loop that folds its turns into one cell. *)
Lemma for_loop_cell_fold {A : Type} `{Inhabited A} (k : nat) (t : nat -> A)
    (op : A -> A -> A) (n : nat) (f0 : list A) :
  k < length f0 ->
  for_loop (S n) (fun j f => <[k := op (f !!! k) (t j)]> f) f0
  = <[k := fold_left (fun acc j => op acc (t j)) (seq 0 (S n)) (f0 !!! k)]> f0.
Proof.
  intros Hk. induction n as [|n IH].
  - reflexivity.
  - rewrite for_loop_S, IH. rewrite list_insert_insert_eq.
    rewrite list_lookup_total_insert_eq by exact Hk.
    f_equal. rewrite (seq_S (S n)), fold_left_app. reflexivity.
Qed.

(** ** The copy loop *)

(** The copy loop after [n] turns: the cells already written hold the
    caller's cells, and the loop stops being defined at the first index past
    the caller's array. *)
Lemma load_loop (data : list R) (n : nat) (d : list R) :
  n <= length d ->
  for_loop n (load_body data) ([], Some d)
  = if decide (n <= length data)
    then (seq 0 n, Some (take n data ++ drop n d))
    else (seq 0 (S (length data)), None).
Proof.
  induction n as [|n IH]; intros Hn.
  - rewrite decide_True by lia. reflexivity.
  - rewrite for_loop_S, IH by lia.
    destruct (decide (n <= length data)) as [Hle|Hgt].
    + unfold load_body. destruct (data !! n) as [x|] eqn:Hx.
      * apply lookup_lt_Some in Hx as Hlt. rewrite decide_True by lia.
        rewrite seq_S. f_equal. f_equal.
        rewrite (take_S_r _ _ _ Hx).
        destruct (lookup_lt_is_Some_2 d n ltac:(lia)) as [y Hy].
        rewrite (drop_S _ _ _ Hy).
        rewrite insert_app_r_alt by (rewrite length_take; lia).
        rewrite length_take, Nat.min_l by lia.
        rewrite Nat.sub_diag. simpl. rewrite <- app_assoc. reflexivity.
      * apply lookup_ge_None in Hx. rewrite decide_False by lia.
        assert (n = length data) as -> by lia.
        rewrite seq_S. reflexivity.
    + rewrite decide_False by lia. reflexivity.
Qed.

(** [load_data] in closed form. *)
Lemma load_data_eq (n : nat) (old data : list R) :
  load_data n old data
  = if decide (n <= length data)
    then (seq 0 n, Some (take n data))
    else (seq 0 (S (length data)), None).
Proof.
  unfold load_data, fill.
  rewrite load_loop by (rewrite length_replicate, length_resize; lia).
  destruct (decide (n <= length data)); [|reflexivity].
  rewrite drop_ge by (rewrite length_replicate, length_resize; lia).
  rewrite app_nil_r. reflexivity.
Qed.

(** ** The rotation table and the rotation matrix *)

Lemma calc_rotors_length (n : nat) (rot : list complex) :
  length (calc_rotors n rot) = n.
Proof.
  unfold calc_rotors.
  pose proof (for_loop_insert_spec (fun k => k)
    (fun k => Cx (cos (2 * pi_d / INR n * INR k)) (sin (2 * pi_d / INR n * INR k)))
    n (resize n C0 rot)) as Hs.
  simpl in Hs. destruct Hs as (Hl & _ & _).
  - intros j Hj. rewrite length_resize. exact Hj.
  - intros i j _ _ Heq. exact Heq.
  - rewrite Hl. apply length_resize.
Qed.

Lemma calc_rotors_lookup (n : nat) (rot : list complex) (k : nat) :
  k < n ->
  calc_rotors n rot !! k
  = Some (Cx (cos (2 * pi_d / INR n * INR k)) (sin (2 * pi_d / INR n * INR k))).
Proof.
  intros Hk. unfold calc_rotors.
  pose proof (for_loop_insert_spec (fun k => k)
    (fun k => Cx (cos (2 * pi_d / INR n * INR k)) (sin (2 * pi_d / INR n * INR k)))
    n (resize n C0 rot)) as Hs.
  simpl in Hs. destruct Hs as (_ & Hset & _).
  - intros j Hj. rewrite length_resize. exact Hj.
  - intros i j _ _ Heq. exact Heq.
  - apply Hset. exact Hk.
Qed.

Lemma rotor_matrix_lookup (n k j : nat) :
  k < n -> j < n ->
  rotor_matrix n !! (k * n + j) = Some (rotor_entry n k j).
Proof.
  intros Hk Hj. unfold rotor_matrix.
  enough (Hinv :
    length (for_loop n
      (fun k m => for_loop n (fun j m => <[k * n + j := rotor_entry n k j]> m) m)
      (replicate (n * n) C0)) = n * n /\
    forall k' j', k' < n -> j' < n ->
      for_loop n
        (fun k m => for_loop n (fun j m => <[k * n + j := rotor_entry n k j]> m) m)
        (replicate (n * n) C0) !! (k' * n + j') = Some (rotor_entry n k' j')).
  { apply Hinv; assumption. }
  apply (for_loop_inv (fun t m =>
    length m = n * n /\
    forall k' j', k' < t -> j' < n -> m !! (k' * n + j') = Some (rotor_entry n k' j'))).
  - split; [apply length_replicate|intros; lia].
  - intros t acc Ht (Hl & Hrows).
    pose proof (for_loop_insert_spec (fun j => t * n + j) (rotor_entry n t) n acc) as Hs.
    simpl in Hs. destruct Hs as (Hl' & Hset & Hkeep).
    + intros i Hi. rewrite Hl. nia.
    + intros a b _ _ Heq. lia.
    + split; [rewrite Hl'; exact Hl|].
      intros k' j' Hk' Hj'. destruct (decide (k' = t)) as [->|Hne].
      * apply Hset. exact Hj'.
      * rewrite Hkeep; [apply Hrows; [lia|exact Hj']|].
        intros i Hi. nia.
Qed.

(** ** The accumulation loop *)

Lemma fold_left_ext_seq {A : Type} (f g : A -> nat -> A) (n : nat) (a : A) :
  (forall acc j, j < n -> f acc j = g acc j) ->
  fold_left f (seq 0 n) a = fold_left g (seq 0 n) a.
Proof.
  intros Hfg. induction n as [|n IH].
  - reflexivity.
  - rewrite seq_S, !fold_left_app. simpl.
    rewrite IH by (intros; apply Hfg; lia). apply Hfg. lia.
Qed.

Lemma accumulate_length (n : nat) (mtx : list complex) (d : list R) (f0 : list complex) :
  length f0 = n -> length (accumulate n mtx d f0) = n.
Proof.
  intros Hf. unfold accumulate.
  apply (for_loop_inv (fun _ f => length f = n)); [exact Hf|].
  intros k acc _ Hacc.
  apply (for_loop_inv (fun _ f => length f = n)); [exact Hacc|].
  intros j acc' _ Hacc'. rewrite length_insert. exact Hacc'.
Qed.

Lemma accumulate_lookup (n : nat) (d : list R) (f0 : list complex) (k : nat) :
  length f0 = n -> k < n ->
  accumulate n (rotor_matrix n) d f0 !! k = Some (direct_sum n d k (f0 !!! k)).
Proof.
  intros Hf Hk. unfold accumulate.
  pose proof (for_loop_update_spec
    (fun k f => for_loop n
       (fun j f => <[k := Cadd (f !!! k) (Cscale (rotor_matrix n !!! (k * n + j)) (d !!! j))]> f) f)
    (fun k init => direct_sum n d k init) n f0) as Hs.
  simpl in Hs. destruct Hs as (_ & Hdone & _).
  - lia.
  - intros k' f Hk' Hlen. destruct n as [|n']; [lia|].
    rewrite (for_loop_cell_fold k'
      (fun j => Cscale (rotor_matrix (S n') !!! (k' * S n' + j)) (d !!! j)) Cadd)
      by lia.
    f_equal. unfold direct_sum. apply fold_left_ext_seq.
    intros acc j Hj. do 2 f_equal.
    apply list_lookup_total_correct. apply rotor_matrix_lookup; assumption.
  - apply Hdone. exact Hk.
Qed.

(** ** [dft] and [fft] in closed form *)

Lemma dft_rejects (s : Fourier) (data : list R) (count : nat) :
  size_ s < count -> dft s data count = Returns false s.
Proof.
  intros Hc. unfold dft.
  destruct (Nat.ltb_spec (size_ s) count) as [_|Hle]; [reflexivity|lia].
Qed.

Lemma fft_rejects (pf : list R -> list complex -> list complex)
    (s : Fourier) (data : list R) (count : nat) :
  size_ s < count -> fft pf s data count = Returns false s.
Proof.
  intros Hc. unfold fft.
  destruct (Nat.ltb_spec (size_ s) count) as [_|Hle]; [reflexivity|lia].
Qed.

Lemma dft_accepts (s : Fourier) (data : list R) (count : nat) :
  count <= size_ s -> size_ s <= length data ->
  dft s data count
  = Returns true
      (mkFourier (rotors_ s)
         (map (dft_cell (size_ s) (take (size_ s) data) (fouriers_ s))
            (seq 0 (size_ s)))
         (take (size_ s) data) (size_ s)).
Proof.
  intros Hc Hd. unfold dft.
  destruct (Nat.ltb_spec (size_ s) count) as [Hlt|_]; [lia|].
  rewrite load_data_eq, decide_True by exact Hd. simpl.
  do 2 f_equal. apply list_eq. intros k.
  rewrite !list_lookup_fmap.
  destruct (decide (k < size_ s)) as [Hk|Hk].
  - rewrite accumulate_lookup by (rewrite ?length_resize; auto).
    rewrite lookup_seq_lt by exact Hk. reflexivity.
  - rewrite (lookup_ge_None_2 (accumulate _ _ _ _))
      by (rewrite accumulate_length; [lia|apply length_resize]).
    rewrite lookup_seq_ge by lia. reflexivity.
Qed.

Lemma dft_undefined (s : Fourier) (data : list R) (count : nat) :
  count <= size_ s -> length data < size_ s ->
  dft s data count = Undefined.
Proof.
  intros Hc Hd. unfold dft.
  destruct (Nat.ltb_spec (size_ s) count) as [Hlt|_]; [lia|].
  rewrite load_data_eq, decide_False by lia. reflexivity.
Qed.

Lemma fft_accepts (pf : list R -> list complex -> list complex)
    (s : Fourier) (data : list R) (count : nat) :
  count <= size_ s -> size_ s <= length data ->
  fft pf s data count
  = Returns true
      (mkFourier (rotors_ s) (pf (take (size_ s) data) (rotors_ s))
         (take (size_ s) data) (size_ s)).
Proof.
  intros Hc Hd. unfold fft.
  destruct (Nat.ltb_spec (size_ s) count) as [Hlt|_]; [lia|].
  rewrite load_data_eq, decide_True by exact Hd. reflexivity.
Qed.

Lemma fft_undefined (pf : list R -> list complex -> list complex)
    (s : Fourier) (data : list R) (count : nat) :
  count <= size_ s -> length data < size_ s ->
  fft pf s data count = Undefined.
Proof.
  intros Hc Hd. unfold fft.
  destruct (Nat.ltb_spec (size_ s) count) as [Hlt|_]; [lia|].
  rewrite load_data_eq, decide_False by lia. reflexivity.
Qed.

Lemma data_reads_eq (s : Fourier) (data : list R) (count : nat) :
  count <= size_ s ->
  data_reads s data count = seq 0 (Nat.min (size_ s) (S (length data))).
Proof.
  intros Hc. unfold data_reads.
  destruct (Nat.ltb_spec (size_ s) count) as [Hlt|_]; [lia|].
  rewrite load_data_eq.
  destruct (decide (size_ s <= length data)).
  - rewrite Nat.min_l by lia. reflexivity.
  - rewrite Nat.min_r by lia. reflexivity.
Qed.

(** ** Arithmetic of the cells *)

Lemma rotor_entry_row0 (n j : nat) : rotor_entry n 0 j = Cx 1 0.
Proof.
  unfold rotor_entry. simpl.
  replace (2 * pi_d / INR n * 0 * INR j)%R with 0%R by ring.
  rewrite cos_0, sin_0. reflexivity.
Qed.

(** Dividing by [complex(1.0 / size_, 0.0)] multiplies both parts by
    [size_]. *)
Lemma scale_step_mult (n : nat) (z : complex) :
  0 < n ->
  scale_step n z = Cx (real z * INR n) (imag z * INR n).
Proof.
  intros Hn. unfold scale_step, Cdiv. simpl.
  assert (INR n <> 0)%R as Hne by (apply not_0_INR; lia).
  f_equal; field; exact Hne.
Qed.

(** The sum of the products, without the cell's earlier content. *)
Lemma direct_sum_init (n : nat) (d : list R) (k : nat) (init : complex) :
  direct_sum n d k init = Cadd init (direct_sum n d k C0).
Proof.
  unfold direct_sum. induction n as [|n IH].
  - destruct init as [a b]. unfold Cadd, C0. simpl. f_equal; ring.
  - rewrite seq_S, !fold_left_app. simpl.
    assert (Hext : forall m (a : complex),
      fold_left (fun acc j => Cadd acc (Cscale (rotor_entry (S n) k j) (d !!! j)))
        (seq 0 m) a
      = Cadd a (fold_left
          (fun acc j => Cadd acc (Cscale (rotor_entry (S n) k j) (d !!! j)))
          (seq 0 m) C0)).
    { clear. induction m as [|m IHm]; intros a.
      - destruct a as [x y]. unfold Cadd, C0. simpl. f_equal; ring.
      - rewrite seq_S, !fold_left_app. simpl. rewrite IHm.
        unfold Cadd. simpl. f_equal; ring. }
    rewrite Hext. unfold Cadd. simpl. f_equal; ring.
Qed.

(** On an engine whose coefficient vector is still empty, an accepted [dft]
    call leaves in cell [k] the sum of the products multiplied by the
    working size. *)
Lemma dft_cell_fresh (n : nat) (d : list R) (k : nat) :
  0 < n ->
  dft_cell n d [] k
  = Cx (real (direct_sum n d k C0) * INR n) (imag (direct_sum n d k C0) * INR n).
Proof.
  intros Hn. unfold dft_cell. rewrite scale_step_mult by exact Hn.
  destruct (decide (k < n)) as [Hk|Hk].
  - rewrite (list_lookup_total_correct (resize n C0 []) k C0); [reflexivity|].
    rewrite resize_nil. apply lookup_replicate_2. exact Hk.
  - rewrite list_lookup_total_alt, lookup_ge_None_2
      by (rewrite length_resize; lia).
    reflexivity.
Qed.

(** Evaluation of one cell at a concrete input. *)
Ltac eval_cell :=
  unfold dft_cell, normalized_sum, direct_sum;
  cbn [seq fold_left resize take replicate length Nat.sub app lookup_total
       list_lookup_total];
  rewrite ?rotor_entry_row0;
  rewrite ?scale_step_mult by lia;
  unfold Cadd, Cscale, C0;
  cbn [real imag INR];
  f_equal; lra.

Example dft_cell_example : dft_cell 2 [1; 1]%R [] 0 = Cx 4 0.
Proof. eval_cell. Qed.

(** ** The direct transform *)

(** C1: the claim says that an accepted [dft] call stores, for each [k], the
    sum over [n] of [matrix(k,n) * sample(n)] divided by [N].  The code
    divides by [complex(1.0 / size_, 0.0)] instead, which multiplies by [N]:
    on every engine whose coefficient vector is still empty an accepted call
    stores the sum multiplied by [N]; on a fresh engine of working size 2 and
    the samples [1, 1], coefficient 0 is stored as [4 + 0i], while the sum
    divided by [N] is [1 + 0i]. *)
Theorem dft_multiplies_by_size :
  (forall (s : Fourier) (data : list R) (count k : nat),
     fouriers_ s = [] ->
     count <= size_ s -> size_ s <= length data -> k < size_ s ->
     exists s',
       dft s data count = Returns true s' /\
       fourier_coef s' !! k
       = Some (Cx (real (direct_sum (size_ s) (data_ s') k C0) * INR (size_ s))
                  (imag (direct_sum (size_ s) (data_ s') k C0) * INR (size_ s)))) /\
  exists s',
    dft (Fourier_ctor (fun n => n) 2) [1; 1]%R 2 = Returns true s' /\
    fourier_coef s' !! 0 = Some (Cx 4 0) /\
    direct_sum 2 [1; 1]%R 0 C0 = Cx 2 0 /\
    normalized_sum 2 [1; 1]%R 0 = Cx 1 0.
Proof.
  split.
  - intros s data count k Hf Hc Hd Hk.
    eexists. split; [apply dft_accepts; assumption|].
    unfold fourier_coef. simpl.
    rewrite list_lookup_fmap, lookup_seq_lt by exact Hk. simpl.
    rewrite Hf. f_equal. apply dft_cell_fresh. lia.
  - eexists. split; [apply dft_accepts; simpl; lia|].
    split; [|split].
    + unfold fourier_coef. simpl. f_equal. eval_cell.
    + eval_cell.
    + eval_cell.
Qed.

(** C2: the claim says that after an accepted call the working buffer holds
    the caller's first [count] samples followed by zeros, so that
    [dft(S, count)] agrees with [dft(S ++ zeros, N)].  The copy loop runs to
    [size_], not to [count], and overwrites the zero fill with whatever
    follows the samples in the caller's array, so the buffer is the first
    [size_] cells of that array: with working size 2, the array
    [1, 5] and [count = 1], the buffer is [1, 5] and coefficient 0 is 12,
    while for the zero-padded input [1, 0] the buffer is [1, 0] and
    coefficient 0 is 2; [fft] loads the same buffer; and when the array has
    exactly [count = 1] element the loop reads past its end. *)
Theorem load_ignores_count :
  (forall (s : Fourier) (data : list R) (count : nat),
     count <= size_ s -> size_ s <= length data ->
     exists s',
       dft s data count = Returns true s' /\ data_ s' = take (size_ s) data) /\
  exists s1 s2,
    dft (Fourier_ctor (fun n => n) 2) [1; 5]%R 1 = Returns true s1 /\
    data_ s1 = [1; 5]%R /\
    fourier_coef s1 !! 0 = Some (Cx 12 0) /\
    dft (Fourier_ctor (fun n => n) 2) ([1] ++ replicate (2 - 1) 0)%R 2
      = Returns true s2 /\
    data_ s2 = [1; 0]%R /\
    fourier_coef s2 !! 0 = Some (Cx 2 0) /\
    (forall pf, exists s3,
       fft pf (Fourier_ctor (fun n => n) 2) [1; 5]%R 1 = Returns true s3 /\
       data_ s3 = [1; 5]%R) /\
    dft (Fourier_ctor (fun n => n) 2) [1]%R 1 = Undefined /\
    (forall pf, fft pf (Fourier_ctor (fun n => n) 2) [1]%R 1 = Undefined).
Proof.
  split.
  { intros s data count Hc Hd.
    eexists. split; [apply dft_accepts; assumption|reflexivity]. }
  eexists. eexists.
  split; [apply dft_accepts; simpl; lia|].
  split; [reflexivity|].
  split; [unfold fourier_coef; simpl; f_equal; eval_cell|].
  split; [apply dft_accepts; simpl; lia|].
  split; [reflexivity|].
  split; [unfold fourier_coef; simpl; f_equal; eval_cell|].
  split.
  - intros pf. eexists. split; [apply fft_accepts; simpl; lia|reflexivity].
  - split; [apply dft_undefined; simpl; lia|].
    intros pf. apply fft_undefined; simpl; lia.
Qed.

(** C3: the claim says that a second [dft(S, count)] leaves the coefficients
    a single call on a fresh engine leaves.  [fouriers_.resize(size_)] keeps
    the cells of the previous call and the loop adds to them: on an engine
    that already holds [size_] coefficients, cell [k] becomes the scaled sum
    of its earlier content and the products; with working size 1 and the
    sample [1], the first call stores [1 + 0i] and the second call stores
    [2 + 0i]. *)
Theorem dft_second_call_accumulates :
  (forall (s : Fourier) (data : list R) (count k : nat) (prev : complex),
     fouriers_ s !! k = Some prev ->
     k < size_ s -> count <= size_ s -> size_ s <= length data ->
     exists s',
       dft s data count = Returns true s' /\
       fourier_coef s' !! k
       = Some (scale_step (size_ s)
                 (Cadd prev (direct_sum (size_ s) (data_ s') k C0)))) /\
  exists s1 s2,
    dft (Fourier_ctor (fun n => n) 1) [1]%R 1 = Returns true s1 /\
    fourier_coef s1 = [Cx 1 0] /\
    dft s1 [1]%R 1 = Returns true s2 /\
    fourier_coef s2 = [Cx 2 0].
Proof.
  split.
  { intros s data count k prev Hp Hk Hc Hd.
    eexists. split; [apply dft_accepts; assumption|].
    unfold fourier_coef. simpl.
    rewrite list_lookup_fmap, lookup_seq_lt by exact Hk. simpl.
    unfold dft_cell. rewrite direct_sum_init. do 3 f_equal.
    apply list_lookup_total_correct.
    rewrite lookup_resize by (apply lookup_lt_Some in Hp; lia).
    exact Hp. }
  eexists. eexists.
  split; [apply dft_accepts; simpl; lia|].
  split; [unfold fourier_coef; simpl; f_equal; eval_cell|].
  split; [apply dft_accepts; simpl; lia|].
  unfold fourier_coef. simpl. f_equal. eval_cell.
Qed.

(** C10: the claim says that the copy loop reads the caller's array only at
    indices below [count].  The loop reads every index below [size_], up to
    and including the first one past the end of the caller's array: with
    working size 2 and [count = 1] it reads index 1, whether the caller's
    array goes on after the sample or ends there. *)
Theorem load_reads_past_count :
  (forall (s : Fourier) (data : list R) (count : nat),
     count <= size_ s ->
     data_reads s data count = seq 0 (Nat.min (size_ s) (S (length data)))) /\
  (forall pf,
     exists s', fft pf (Fourier_ctor (fun n => n) 2) [1; 5]%R 1 = Returns true s') /\
  (exists s', dft (Fourier_ctor (fun n => n) 2) [1; 5]%R 1 = Returns true s') /\
  data_reads (Fourier_ctor (fun n => n) 2) [1; 5]%R 1 = [0; 1] /\
  data_reads (Fourier_ctor (fun n => n) 2) [1]%R 1 = [0; 1].
Proof.
  split; [|split; [|split; [|split]]].
  - intros s data count Hc. apply data_reads_eq. exact Hc.
  - intros pf. eexists. apply fft_accepts; simpl; lia.
  - eexists. apply dft_accepts; simpl; lia.
  - rewrite data_reads_eq by (simpl; lia). reflexivity.
  - rewrite data_reads_eq by (simpl; lia). reflexivity.
Qed.

(** ** Rejection of oversized input *)

(** C4: [dft] and [fft] return [false] exactly when [count] exceeds the
    working size, and then [size()] still returns the working size of before
    the call; a call with [count <= size_] on an array that holds [size_]
    elements returns [true]. *)
Theorem false_iff_oversized (pf : list R -> list complex -> list complex)
    (s : Fourier) (data : list R) (count : nat) :
  ((exists s', dft s data count = Returns false s') <-> size s < count) /\
  ((exists s', fft pf s data count = Returns false s') <-> size s < count) /\
  (forall s', dft s data count = Returns false s' -> size s' = size s) /\
  (forall s', fft pf s data count = Returns false s' -> size s' = size s) /\
  (count <= size s -> size s <= length data ->
   (exists s', dft s data count = Returns true s') /\
   (exists s', fft pf s data count = Returns true s')).
Proof.
  unfold size.
  assert (Hd : forall s', dft s data count = Returns false s' ->
                          size_ s < count /\ s' = s).
  { intros s' Hr. unfold dft in Hr.
    destruct (Nat.ltb_spec (size_ s) count) as [Hlt|Hle].
    - split; [exact Hlt|congruence].
    - destruct (snd (load_data (size_ s) (data_ s) data)); discriminate. }
  assert (Hf : forall s', fft pf s data count = Returns false s' ->
                          size_ s < count /\ s' = s).
  { intros s' Hr. unfold fft in Hr.
    destruct (Nat.ltb_spec (size_ s) count) as [Hlt|Hle].
    - split; [exact Hlt|congruence].
    - destruct (snd (load_data (size_ s) (data_ s) data)); discriminate. }
  repeat split.
  - intros [s' Hr]. apply (Hd s' Hr).
  - intros Hlt. exists s. apply dft_rejects. exact Hlt.
  - intros [s' Hr]. apply (Hf s' Hr).
  - intros Hlt. exists s. apply fft_rejects. exact Hlt.
  - intros s' Hr. destruct (Hd s' Hr) as [_ ->]. reflexivity.
  - intros s' Hr. destruct (Hf s' Hr) as [_ ->]. reflexivity.
  - eexists. apply dft_accepts; assumption.
  - eexists. apply fft_accepts; assumption.
Qed.

(** C9: a [dft] or [fft] call that returns [false] leaves the whole engine
    state (coefficients, working buffer, rotation table, working size) as it
    was, and a call with [count > size_] does return [false]. *)
Theorem false_leaves_state (pf : list R -> list complex -> list complex)
    (s : Fourier) (data : list R) (count : nat) :
  (forall s', dft s data count = Returns false s' -> s' = s) /\
  (forall s', fft pf s data count = Returns false s' -> s' = s) /\
  (size_ s < count ->
   dft s data count = Returns false s /\ fft pf s data count = Returns false s).
Proof.
  split; [|split].
  - intros s' Hr. unfold dft in Hr.
    destruct (size_ s <? count); [congruence|].
    destruct (snd (load_data (size_ s) (data_ s) data)); discriminate.
  - intros s' Hr. unfold fft in Hr.
    destruct (size_ s <? count); [congruence|].
    destruct (snd (load_data (size_ s) (data_ s) data)); discriminate.
  - intros Hlt. split; [apply dft_rejects|apply fft_rejects]; exact Hlt.
Qed.

(** ** The fast transform *)

(** C5: an accepted [fft] call stores exactly what the policy's [fft] returns
    on the working buffer and the rotation table, unscaled; the call returns
    [true] whenever the caller's array holds [size_] elements. *)
Theorem fft_stores_policy_result (pf : list R -> list complex -> list complex)
    (s : Fourier) (data : list R) (count : nat) :
  count <= size_ s ->
  (forall s', fft pf s data count = Returns true s' ->
     fourier_coef s' = pf (data_ s') (rotors s) /\ rotors s' = rotors s) /\
  (size_ s <= length data ->
   exists s', fft pf s data count = Returns true s' /\
     fourier_coef s' = pf (data_ s') (rotors s)).
Proof.
  intros Hc. split.
  - intros s' Hr. unfold fft in Hr.
    destruct (Nat.ltb_spec (size_ s) count) as [Hlt|_]; [lia|].
    destruct (snd (load_data (size_ s) (data_ s) data)) as [d|]; [|discriminate].
    injection Hr as <-. split; reflexivity.
  - intros Hd. eexists. split; [apply fft_accepts; assumption|reflexivity].
Qed.

(** An instance: working size 1, the sample [3], and a policy that copies
    each sample into both parts of a coefficient. *)
Lemma fft_stores_policy_result_witness :
  1 <= size_ (Fourier_ctor (fun n => n) 1) /\
  ((forall s',
      fft (fun d _ => map (fun x => Cx x x) d)
        (Fourier_ctor (fun n => n) 1) [3]%R 1 = Returns true s' ->
      fourier_coef s'
      = (fun d _ => map (fun x => Cx x x) d) (data_ s')
          (rotors (Fourier_ctor (fun n => n) 1)) /\
      rotors s' = rotors (Fourier_ctor (fun n => n) 1)) /\
   (size_ (Fourier_ctor (fun n => n) 1) <= length [3]%R ->
    exists s',
      fft (fun d _ => map (fun x => Cx x x) d)
        (Fourier_ctor (fun n => n) 1) [3]%R 1 = Returns true s' /\
      fourier_coef s'
      = (fun d _ => map (fun x => Cx x x) d) (data_ s')
          (rotors (Fourier_ctor (fun n => n) 1)))).
Proof.
  split; [simpl; lia|].
  apply (fft_stores_policy_result (fun d _ => map (fun x => Cx x x) d)
           (Fourier_ctor (fun n => n) 1) [3]%R 1).
  simpl. lia.
Defined.

(** ** The derived spectra *)

Lemma transform_full {A B : Type} (f : A -> B) (src : list A) (dst : list B) :
  length dst = length src -> transform f src dst = map f src.
Proof.
  intros Hl. unfold transform.
  rewrite drop_ge by lia. apply app_nil_r.
Qed.

Lemma amplifiers_eq (s : Fourier) : amplifiers s = map Cabs (fouriers_ s).
Proof. apply transform_full. apply length_replicate. Qed.

Lemma angles_eq (s : Fourier) : angles s = map Carg (fouriers_ s).
Proof. apply transform_full. apply length_replicate. Qed.

Lemma power_spectrums_eq (s : Fourier) :
  power_spectrums s = map (fun z => (Cabs z * Cabs z)%R) (fouriers_ s).
Proof.
  unfold power_spectrums. rewrite amplifiers_eq, map_map. reflexivity.
Qed.

(** The range of [atan2]. *)
Lemma atan2_range (y x : R) : (- PI < atan2 y x <= PI)%R.
Proof.
  pose proof PI_RGT_0 as Hpi.
  pose proof (atan_bound (y / x)) as [Hlo Hhi].
  unfold atan2.
  destruct (Rlt_dec 0 x) as [Hx|Hx]; [lra|].
  destruct (Rlt_dec x 0) as [Hx'|Hx'].
  - destruct (Rle_dec 0 y) as [Hy|Hy].
    + assert (y / x <= 0)%R as Hq.
      { unfold Rdiv. assert (/ x < 0)%R by (apply Rinv_lt_0_compat; exact Hx').
        nra. }
      assert (atan (y / x) <= 0)%R as Ha.
      { destruct Hq as [Hq|Hq].
        - left. rewrite <- atan_0. apply atan_increasing. exact Hq.
        - rewrite Hq, atan_0. lra. }
      lra.
    + assert (0 < y / x)%R as Hq.
      { unfold Rdiv. assert (/ x < 0)%R by (apply Rinv_lt_0_compat; exact Hx').
        nra. }
      assert (0 < atan (y / x))%R as Ha.
      { rewrite <- atan_0. apply atan_increasing. exact Hq. }
      lra.
  - destruct (Rlt_dec 0 y); [lra|]. destruct (Rlt_dec y 0); lra.
Qed.

(** C6: for every coefficient [c] at index [k], [amplifiers()[k]] is
    [sqrt(real(c)^2 + imag(c)^2)] and is not negative, [power_spectrums()[k]]
    is the square of [amplifiers()[k]], and [angles()[k]] is
    [atan2(imag(c), real(c))] and lies in the interval from [-pi] (excluded)
    to [pi] (included).  Stated over the reals. *)
Theorem spectra_of_coefficient (s : Fourier) (k : nat) (c : complex) :
  fourier_coef s !! k = Some c ->
  exists a p,
    amplifiers s !! k = Some a /\
    a = sqrt (real c ^ 2 + imag c ^ 2) /\
    (0 <= a)%R /\
    power_spectrums s !! k = Some (a * a)%R /\
    angles s !! k = Some p /\
    p = atan2 (imag c) (real c) /\
    (- PI < p <= PI)%R /\
    length (amplifiers s) = length (fourier_coef s) /\
    length (power_spectrums s) = length (fourier_coef s) /\
    length (angles s) = length (fourier_coef s).
Proof.
  unfold fourier_coef. intros Hc.
  exists (Cabs c), (Carg c).
  rewrite power_spectrums_eq, amplifiers_eq, angles_eq.
  rewrite !list_lookup_fmap, Hc, !length_map. simpl.
  repeat split; try reflexivity.
  - unfold Cabs. f_equal. ring.
  - apply sqrt_pos.
  - apply atan2_range.
  - apply atan2_range.
Qed.

(** An instance: the coefficients [3 + 4i, 0 + 1i], read at index 1. *)
Lemma spectra_of_coefficient_witness :
  fourier_coef (mkFourier [] [Cx 3 4; Cx 0 1] [] 2) !! 1 = Some (Cx 0 1) /\
  exists a p,
    amplifiers (mkFourier [] [Cx 3 4; Cx 0 1] [] 2) !! 1 = Some a /\
    a = sqrt (real (Cx 0 1) ^ 2 + imag (Cx 0 1) ^ 2) /\
    (0 <= a)%R /\
    power_spectrums (mkFourier [] [Cx 3 4; Cx 0 1] [] 2) !! 1 = Some (a * a)%R /\
    angles (mkFourier [] [Cx 3 4; Cx 0 1] [] 2) !! 1 = Some p /\
    p = atan2 (imag (Cx 0 1)) (real (Cx 0 1)) /\
    (- PI < p <= PI)%R /\
    length (amplifiers (mkFourier [] [Cx 3 4; Cx 0 1] [] 2))
      = length (fourier_coef (mkFourier [] [Cx 3 4; Cx 0 1] [] 2)) /\
    length (power_spectrums (mkFourier [] [Cx 3 4; Cx 0 1] [] 2))
      = length (fourier_coef (mkFourier [] [Cx 3 4; Cx 0 1] [] 2)) /\
    length (angles (mkFourier [] [Cx 3 4; Cx 0 1] [] 2))
      = length (fourier_coef (mkFourier [] [Cx 3 4; Cx 0 1] [] 2)).
Proof.
  split; [reflexivity|].
  apply (spectra_of_coefficient (mkFourier [] [Cx 3 4; Cx 0 1] [] 2) 1 (Cx 0 1)).
  reflexivity.
Defined.

(** C7: on a freshly constructed engine, before any transform call,
    [fourier_coef()], [amplifiers()], [power_spectrums()] and [angles()] all
    return the empty sequence. *)
Theorem fresh_engine_is_empty (calc_size : nat -> nat) (requested : nat) :
  fourier_coef (Fourier_ctor calc_size requested) = [] /\
  amplifiers (Fourier_ctor calc_size requested) = [] /\
  power_spectrums (Fourier_ctor calc_size requested) = [] /\
  angles (Fourier_ctor calc_size requested) = [] /\
  length (fourier_coef (Fourier_ctor calc_size requested)) = 0.
Proof. repeat split. Qed.

(** ** The rotation table *)









(** * Further properties of the engine *)

(** ** When a call is defined *)

Lemma dft_true_inv (s : Fourier) (data : list R) (count : nat) (s' : Fourier) :
  dft s data count = Returns true s' ->
  count <= size_ s /\ size_ s <= length data.
Proof.
  intros Hr.
  destruct (le_lt_dec count (size_ s)) as [Hc|Hc].
  - destruct (le_lt_dec (size_ s) (length data)) as [Hd|Hd]; [auto|].
    rewrite dft_undefined in Hr by assumption. discriminate.
  - rewrite dft_rejects in Hr by exact Hc. discriminate.
Qed.

Lemma fft_true_inv (pf : list R -> list complex -> list complex)
    (s : Fourier) (data : list R) (count : nat) (s' : Fourier) :
  fft pf s data count = Returns true s' ->
  count <= size_ s /\ size_ s <= length data.
Proof.
  intros Hr.
  destruct (le_lt_dec count (size_ s)) as [Hc|Hc].
  - destruct (le_lt_dec (size_ s) (length data)) as [Hd|Hd]; [auto|].
    rewrite fft_undefined in Hr by assumption. discriminate.
  - rewrite fft_rejects in Hr by exact Hc. discriminate.
Qed.

(** X1: a [dft] or [fft] call reads outside the caller's array exactly when
    it passes the guard ([count <= size_]) and the array holds fewer than
    [size_] cells, whatever [count] is; it returns [true] exactly when it
    passes the guard and the array holds at least [size_] cells; and a
    rejected call reads nothing. *)
Theorem call_defined_iff (pf : list R -> list complex -> list complex)
    (s : Fourier) (data : list R) (count : nat) :
  (dft s data count = Undefined <-> count <= size_ s /\ length data < size_ s) /\
  (fft pf s data count = Undefined <-> count <= size_ s /\ length data < size_ s) /\
  ((exists s', dft s data count = Returns true s')
   <-> count <= size_ s /\ size_ s <= length data) /\
  ((exists s', fft pf s data count = Returns true s')
   <-> count <= size_ s /\ size_ s <= length data) /\
  (size_ s < count -> data_reads s data count = []).
Proof.
  split; [|split; [|split; [|split]]].
  - split.
    + intros Hu. destruct (le_lt_dec count (size_ s)) as [Hc|Hc].
      * destruct (le_lt_dec (size_ s) (length data)) as [Hd|Hd]; [|auto].
        rewrite dft_accepts in Hu by assumption. discriminate.
      * rewrite dft_rejects in Hu by exact Hc. discriminate.
    + intros [Hc Hd]. apply dft_undefined; assumption.
  - split.
    + intros Hu. destruct (le_lt_dec count (size_ s)) as [Hc|Hc].
      * destruct (le_lt_dec (size_ s) (length data)) as [Hd|Hd]; [|auto].
        rewrite fft_accepts in Hu by assumption. discriminate.
      * rewrite fft_rejects in Hu by exact Hc. discriminate.
    + intros [Hc Hd]. apply fft_undefined; assumption.
  - split.
    + intros [s' Hr]. apply (dft_true_inv _ _ _ _ Hr).
    + intros [Hc Hd]. eexists. apply dft_accepts; assumption.
  - split.
    + intros [s' Hr]. apply (fft_true_inv _ _ _ _ _ Hr).
    + intros [Hc Hd]. eexists. apply fft_accepts; assumption.
  - intros Hc. unfold data_reads.
    destruct (Nat.ltb_spec (size_ s) count) as [_|Hle]; [reflexivity|lia].
Qed.

(** X2: among calls that pass the guard, the outcome of [dft] and of [fft]
    is fixed by the first [size_] cells of the caller's array: neither the
    value of [count] nor the cells from index [size_] on have any effect. *)
Theorem outcome_fixed_by_prefix (pf : list R -> list complex -> list complex)
    (s : Fourier) (data1 data2 : list R) (count1 count2 : nat) :
  count1 <= size_ s -> count2 <= size_ s ->
  take (size_ s) data1 = take (size_ s) data2 ->
  dft s data1 count1 = dft s data2 count2 /\
  fft pf s data1 count1 = fft pf s data2 count2.
Proof.
  intros Hc1 Hc2 Ht.
  assert (Hl : length (take (size_ s) data1) = length (take (size_ s) data2))
    by (rewrite Ht; reflexivity).
  rewrite !length_take in Hl.
  destruct (le_lt_dec (size_ s) (length data1)) as [Hd|Hd].
  - assert (size_ s <= length data2) as Hd2 by lia.
    rewrite !dft_accepts, !fft_accepts by assumption.
    rewrite Ht. split; reflexivity.
  - assert (length data2 < size_ s) as Hd2 by lia.
    rewrite !dft_undefined, !fft_undefined by assumption.
    split; reflexivity.
Qed.

Lemma outcome_fixed_by_prefix_witness :
  1 <= size_ (Fourier_ctor (fun n => n) 2) /\
  2 <= size_ (Fourier_ctor (fun n => n) 2) /\
  take (size_ (Fourier_ctor (fun n => n) 2)) [1; 5; 7]%R
  = take (size_ (Fourier_ctor (fun n => n) 2)) [1; 5]%R /\
  dft (Fourier_ctor (fun n => n) 2) [1; 5; 7]%R 1
  = dft (Fourier_ctor (fun n => n) 2) [1; 5]%R 2 /\
  fft (fun d _ => map (fun x => Cx x x) d) (Fourier_ctor (fun n => n) 2) [1; 5; 7]%R 1
  = fft (fun d _ => map (fun x => Cx x x) d) (Fourier_ctor (fun n => n) 2) [1; 5]%R 2.
Proof.
  split; [simpl; lia|]. split; [simpl; lia|]. split; [reflexivity|].
  apply (outcome_fixed_by_prefix (fun d _ => map (fun x => Cx x x) d)
           (Fourier_ctor (fun n => n) 2) [1; 5; 7]%R [1; 5]%R 1 2).
  - simpl. lia.
  - simpl. lia.
  - reflexivity.
Defined.

(** X3: a call that passes the guard never looks at the previous working
    buffer, and [fft] never looks at the previous coefficients either: [fft]
    replaces both, while [dft] replaces only the buffer. *)
Theorem prior_state_ignored (pf : list R -> list complex -> list complex)
    (s : Fourier) (data : list R) (count : nat)
    (f' : list complex) (d' : list R) :
  count <= size_ s ->
  fft pf (mkFourier (rotors_ s) f' d' (size_ s)) data count = fft pf s data count /\
  dft (mkFourier (rotors_ s) (fouriers_ s) d' (size_ s)) data count
  = dft s data count.
Proof.
  intros Hc.
  destruct (le_lt_dec (size_ s) (length data)) as [Hd|Hd].
  - rewrite !dft_accepts, !fft_accepts by (simpl; assumption).
    split; reflexivity.
  - rewrite !dft_undefined, !fft_undefined by (simpl; assumption).
    split; reflexivity.
Qed.

Lemma prior_state_ignored_witness :
  1 <= size_ (mkFourier [] [Cx 7 7] [9]%R 1) /\
  fft (fun d _ => map (fun x => Cx x x) d)
    (mkFourier (rotors_ (mkFourier [] [Cx 7 7] [9]%R 1)) [] []
       (size_ (mkFourier [] [Cx 7 7] [9]%R 1))) [3]%R 1
  = fft (fun d _ => map (fun x => Cx x x) d) (mkFourier [] [Cx 7 7] [9]%R 1) [3]%R 1 /\
  dft (mkFourier (rotors_ (mkFourier [] [Cx 7 7] [9]%R 1))
         (fouriers_ (mkFourier [] [Cx 7 7] [9]%R 1)) []
         (size_ (mkFourier [] [Cx 7 7] [9]%R 1))) [3]%R 1
  = dft (mkFourier [] [Cx 7 7] [9]%R 1) [3]%R 1.
Proof.
  split; [simpl; lia|].
  apply (prior_state_ignored (fun d _ => map (fun x => Cx x x) d)
           (mkFourier [] [Cx 7 7] [9]%R 1) [3]%R 1 [] []).
  simpl. lia.
Defined.

(** ** Sizes and invariants *)

(** X4: after a [dft] call that returns [true], the coefficient vector and
    the working buffer have exactly [size()] cells, and so have the results
    of [amplifiers()], [power_spectrums()] and [angles()]. *)
Theorem dft_result_lengths (s : Fourier) (data : list R) (count : nat)
    (s' : Fourier) :
  dft s data count = Returns true s' ->
  size s' = size s /\
  length (fourier_coef s') = size s /\
  length (data_ s') = size s /\
  length (amplifiers s') = size s /\
  length (power_spectrums s') = size s /\
  length (angles s') = size s.
Proof.
  intros Hr. destruct (dft_true_inv _ _ _ _ Hr) as [Hc Hd].
  rewrite dft_accepts in Hr by assumption. injection Hr as <-.
  rewrite power_spectrums_eq, amplifiers_eq, angles_eq.
  unfold size, fourier_coef. simpl.
  rewrite !length_map, length_seq, length_take.
  repeat split; try reflexivity. lia.
Qed.

Lemma dft_result_lengths_witness :
  dft (mkFourier [] [] [] 1) [3]%R 1
  = Returns true (mkFourier [] [dft_cell 1 [3]%R [] 0] [3]%R 1) /\
  size (mkFourier [] [dft_cell 1 [3]%R [] 0] [3]%R 1) = size (mkFourier [] [] [] 1) /\
  length (fourier_coef (mkFourier [] [dft_cell 1 [3]%R [] 0] [3]%R 1))
  = size (mkFourier [] [] [] 1) /\
  length (data_ (mkFourier [] [dft_cell 1 [3]%R [] 0] [3]%R 1))
  = size (mkFourier [] [] [] 1) /\
  length (amplifiers (mkFourier [] [dft_cell 1 [3]%R [] 0] [3]%R 1))
  = size (mkFourier [] [] [] 1) /\
  length (power_spectrums (mkFourier [] [dft_cell 1 [3]%R [] 0] [3]%R 1))
  = size (mkFourier [] [] [] 1) /\
  length (angles (mkFourier [] [dft_cell 1 [3]%R [] 0] [3]%R 1))
  = size (mkFourier [] [] [] 1).
Proof.
  assert (H : dft (mkFourier [] [] [] 1) [3]%R 1
              = Returns true (mkFourier [] [dft_cell 1 [3]%R [] 0] [3]%R 1)).
  { rewrite dft_accepts by (simpl; lia). reflexivity. }
  split; [exact H|].
  exact (dft_result_lengths (mkFourier [] [] [] 1) [3]%R 1 _ H).
Defined.

Lemma reachable_shape (calc_size : nat -> nat)
    (pf : list R -> list complex -> list complex) (requested : nat)
    (s : Fourier) :
  reachable calc_size pf requested s ->
  size_ s = calc_size requested /\
  rotors_ s = calc_rotors (calc_size requested) [] /\
  length (rotors_ s) = calc_size requested /\
  (data_ s = [] \/ length (data_ s) = calc_size requested).
Proof.
  induction 1 as [|s data count b s' Hreach IH Hr|s data count b s' Hreach IH Hr].
  - simpl. rewrite calc_rotors_length. auto.
  - destruct IH as (Hs & Hrot & Hlen & Hdata).
    destruct (le_lt_dec count (size_ s)) as [Hc|Hc].
    + destruct (le_lt_dec (size_ s) (length data)) as [Hd|Hd].
      * rewrite dft_accepts in Hr by assumption. injection Hr as _ <-. simpl.
        rewrite length_take. repeat split; auto. right. lia.
      * rewrite dft_undefined in Hr by assumption. discriminate.
    + rewrite dft_rejects in Hr by exact Hc. injection Hr as _ <-. auto.
  - destruct IH as (Hs & Hrot & Hlen & Hdata).
    destruct (le_lt_dec count (size_ s)) as [Hc|Hc].
    + destruct (le_lt_dec (size_ s) (length data)) as [Hd|Hd].
      * rewrite fft_accepts in Hr by assumption. injection Hr as _ <-. simpl.
        rewrite length_take. repeat split; auto. right. lia.
      * rewrite fft_undefined in Hr by assumption. discriminate.
    + rewrite fft_rejects in Hr by exact Hc. injection Hr as _ <-. auto.
Qed.

(** X5: in every state a client can reach from the constructor by [dft] and
    [fft] calls, the working size is the one the policy chose at
    construction, the rotation table is the one built at construction (with
    that many entries), and the working buffer is either still empty or has
    exactly that many cells. *)
Theorem reachable_invariant (calc_size : nat -> nat)
    (pf : list R -> list complex -> list complex) (requested : nat)
    (s : Fourier) :
  reachable calc_size pf requested s ->
  size s = calc_size requested /\
  rotors s = calc_rotors (calc_size requested) [] /\
  length (rotors s) = calc_size requested /\
  (data_ s = [] \/ length (data_ s) = calc_size requested).
Proof. apply reachable_shape. Qed.

Lemma reachable_invariant_witness :
  reachable (fun n => n) (fun d _ => map (fun x => Cx x x) d) 1
    (mkFourier (calc_rotors 1 []) [Cx 3 3] [3]%R 1) /\
  size (mkFourier (calc_rotors 1 []) [Cx 3 3] [3]%R 1) = 1 /\
  rotors (mkFourier (calc_rotors 1 []) [Cx 3 3] [3]%R 1) = calc_rotors 1 [] /\
  length (rotors (mkFourier (calc_rotors 1 []) [Cx 3 3] [3]%R 1)) = 1 /\
  (data_ (mkFourier (calc_rotors 1 []) [Cx 3 3] [3]%R 1) = [] \/
   length (data_ (mkFourier (calc_rotors 1 []) [Cx 3 3] [3]%R 1)) = 1).
Proof.
  assert (H : reachable (fun n => n) (fun d _ => map (fun x => Cx x x) d) 1
                (mkFourier (calc_rotors 1 []) [Cx 3 3] [3]%R 1)).
  { apply (reach_fft _ _ _ (Fourier_ctor (fun n => n) 1) [3]%R 1 true).
    - apply reach_ctor.
    - rewrite fft_accepts by (simpl; lia). reflexivity. }
  split; [exact H|].
  exact (reachable_invariant (fun n => n) (fun d _ => map (fun x => Cx x x) d) 1 _ H).
Defined.

(** X6: when the policy chooses the working size 0, the constructed engine
    has an empty rotation table, every call with [count > 0] is rejected, and
    a call with [count = 0] returns [true] without reading the caller's array
    and leaves the engine exactly as it was, with no coefficients. *)
Theorem zero_size_engine (calc_size : nat -> nat)
    (pf : list R -> list complex -> list complex) (requested : nat)
    (data : list R) (count : nat) :
  calc_size requested = 0 ->
  rotors (Fourier_ctor calc_size requested) = [] /\
  dft (Fourier_ctor calc_size requested) data 0
  = Returns true (Fourier_ctor calc_size requested) /\
  fft pf (Fourier_ctor calc_size requested) data 0
  = Returns true (mkFourier [] (pf [] []) [] 0) /\
  data_reads (Fourier_ctor calc_size requested) data 0 = [] /\
  (0 < count ->
   dft (Fourier_ctor calc_size requested) data count
   = Returns false (Fourier_ctor calc_size requested) /\
   fft pf (Fourier_ctor calc_size requested) data count
   = Returns false (Fourier_ctor calc_size requested)).
Proof.
  intros Hz. unfold rotors, Fourier_ctor. rewrite Hz.
  split; [reflexivity|]. split; [reflexivity|]. split; [reflexivity|].
  split; [reflexivity|].
  intros Hc. split; [apply dft_rejects|apply fft_rejects]; simpl; exact Hc.
Qed.

Lemma zero_size_engine_witness :
  (fun _ : nat => 0) 5 = 0 /\
  rotors (Fourier_ctor (fun _ => 0) 5) = [] /\
  dft (Fourier_ctor (fun _ => 0) 5) [] 0 = Returns true (Fourier_ctor (fun _ => 0) 5) /\
  fft (fun d _ => map (fun x => Cx x x) d) (Fourier_ctor (fun _ => 0) 5) [] 0
  = Returns true (mkFourier [] (map (fun x => Cx x x) []) [] 0) /\
  data_reads (Fourier_ctor (fun _ => 0) 5) [] 0 = [] /\
  (0 < 3 ->
   dft (Fourier_ctor (fun _ => 0) 5) [] 3 = Returns false (Fourier_ctor (fun _ => 0) 5) /\
   fft (fun d _ => map (fun x => Cx x x) d) (Fourier_ctor (fun _ => 0) 5) [] 3
   = Returns false (Fourier_ctor (fun _ => 0) 5)).
Proof.
  split; [reflexivity|].
  apply (zero_size_engine (fun _ => 0) (fun d _ => map (fun x => Cx x x) d) 5 [] 3).
  reflexivity.
Defined.

(** ** What the direct transform computes *)

Lemma Rsum_snoc (l : list R) (x : R) : Rsum (l ++ [x]) = (Rsum l + x)%R.
Proof.
  unfold Rsum. induction l as [|y l IH]; simpl.
  - ring.
  - rewrite IH. ring.
Qed.

(** A coefficient read after an accepted [dft] call is the cell of the
    closed form. *)
Lemma dft_cell_lookup (s : Fourier) (data : list R) (count : nat)
    (s' : Fourier) (k : nat) (c : complex) :
  dft s data count = Returns true s' ->
  fourier_coef s' !! k = Some c ->
  count <= size_ s /\ size_ s <= length data /\ k < size_ s /\
  c = dft_cell (size_ s) (take (size_ s) data) (fouriers_ s) k.
Proof.
  intros Hr Hk. destruct (dft_true_inv _ _ _ _ Hr) as [Hc Hd].
  rewrite dft_accepts in Hr by assumption. injection Hr as <-.
  unfold fourier_coef in Hk. simpl in Hk.
  rewrite list_lookup_fmap in Hk.
  destruct (seq 0 (size_ s) !! k) as [k'|] eqn:Hs; [|discriminate].
  apply lookup_seq in Hs as [-> Hlt]. simpl in Hk.
  injection Hk as <-. auto.
Qed.

(** Row 0 of the matrix is all ones, so coefficient 0 adds up the samples. *)
Lemma row0_prefix_sum (n : nat) (d : list R) (m : nat) (init : complex) :
  m <= length d ->
  fold_left (fun acc j => Cadd acc (Cscale (rotor_entry n 0 j) (d !!! j)))
    (seq 0 m) init
  = Cx (real init + Rsum (take m d)) (imag init).
Proof.
  induction m as [|m IH]; intros Hm.
  - destruct init as [a b]. simpl. f_equal; unfold Rsum; simpl; ring.
  - rewrite seq_S, fold_left_app, IH by lia. simpl.
    destruct (lookup_lt_is_Some_2 d m ltac:(lia)) as [x Hx].
    rewrite (take_S_r _ _ _ Hx), Rsum_snoc.
    rewrite (list_lookup_total_correct _ _ _ Hx).
    rewrite rotor_entry_row0. unfold Cadd, Cscale. simpl. f_equal; ring.
Qed.

(** The sum of the products is additive and homogeneous in the samples. *)
Lemma weighted_sum_add (w : nat -> complex) (d1 d2 d3 : list R) (m : nat) :
  (forall j, j < m -> d3 !!! j = (d1 !!! j + d2 !!! j)%R) ->
  fold_left (fun acc j => Cadd acc (Cscale (w j) (d3 !!! j))) (seq 0 m) C0
  = Cadd
      (fold_left (fun acc j => Cadd acc (Cscale (w j) (d1 !!! j))) (seq 0 m) C0)
      (fold_left (fun acc j => Cadd acc (Cscale (w j) (d2 !!! j))) (seq 0 m) C0).
Proof.
  induction m as [|m IH]; intros Hd.
  - unfold Cadd, C0. simpl. f_equal; ring.
  - rewrite !seq_S, !fold_left_app. simpl.
    rewrite IH by (intros; apply Hd; lia). rewrite Hd by lia.
    unfold Cadd, Cscale. simpl. f_equal; ring.
Qed.

Lemma weighted_sum_scale (w : nat -> complex) (d d' : list R) (a : R) (m : nat) :
  (forall j, j < m -> d' !!! j = (a * d !!! j)%R) ->
  fold_left (fun acc j => Cadd acc (Cscale (w j) (d' !!! j))) (seq 0 m) C0
  = Cscale
      (fold_left (fun acc j => Cadd acc (Cscale (w j) (d !!! j))) (seq 0 m) C0)
      a.
Proof.
  induction m as [|m IH]; intros Hd.
  - unfold Cscale, C0. simpl. f_equal; ring.
  - rewrite !seq_S, !fold_left_app. simpl.
    rewrite IH by (intros; apply Hd; lia). rewrite Hd by lia.
    unfold Cadd, Cscale. simpl. f_equal; ring.
Qed.

(** X7: on an engine that holds no coefficients yet, an accepted [dft] call
    stores as coefficient 0 the sum of the first [size_] cells of the
    caller's array multiplied by [size_], with imaginary part 0. *)
Theorem dft_dc_coefficient (s : Fourier) (data : list R) (count : nat) :
  fouriers_ s = [] ->
  0 < size_ s -> count <= size_ s -> size_ s <= length data ->
  exists s',
    dft s data count = Returns true s' /\
    fourier_coef s' !! 0
    = Some (Cx (Rsum (take (size_ s) data) * INR (size_ s)) 0).
Proof.
  intros Hf Hn Hc Hd.
  eexists. split; [apply dft_accepts; assumption|].
  unfold fourier_coef. simpl.
  rewrite list_lookup_fmap, lookup_seq_lt by exact Hn. simpl.
  rewrite Hf, dft_cell_fresh by exact Hn.
  unfold direct_sum. rewrite row0_prefix_sum by (rewrite length_take; lia).
  rewrite take_idemp. simpl. do 2 f_equal; ring.
Qed.

Lemma dft_dc_coefficient_witness :
  fouriers_ (mkFourier [] [] [] 2) = [] /\
  0 < size_ (mkFourier [] [] [] 2) /\
  1 <= size_ (mkFourier [] [] [] 2) /\
  size_ (mkFourier [] [] [] 2) <= length [3; 4; 9]%R /\
  exists s',
    dft (mkFourier [] [] [] 2) [3; 4; 9]%R 1 = Returns true s' /\
    fourier_coef s' !! 0
    = Some (Cx (Rsum (take (size_ (mkFourier [] [] [] 2)) [3; 4; 9]%R)
                * INR (size_ (mkFourier [] [] [] 2))) 0).
Proof.
  split; [reflexivity|]. split; [simpl; lia|]. split; [simpl; lia|].
  split; [simpl; lia|].
  apply (dft_dc_coefficient (mkFourier [] [] [] 2) [3; 4; 9]%R 1).
  - reflexivity.
  - simpl. lia.
  - simpl. lia.
  - simpl. lia.
Defined.

(** X8: on an engine that holds no coefficients yet, [dft] is linear in the
    samples: the coefficients for the cell-wise sum of two arrays are the
    sums of their coefficients, and the coefficients for an array multiplied
    by a factor are the coefficients multiplied by that factor. *)
Theorem dft_linear (s : Fourier) (d1 d2 : list R) (a : R) (count k : nat)
    (s1 s2 : Fourier) (c1 c2 : complex) :
  fouriers_ s = [] ->
  dft s d1 count = Returns true s1 -> fourier_coef s1 !! k = Some c1 ->
  dft s d2 count = Returns true s2 -> fourier_coef s2 !! k = Some c2 ->
  (exists s3,
     dft s (zip_with Rplus d1 d2) count = Returns true s3 /\
     fourier_coef s3 !! k = Some (Cadd c1 c2)) /\
  (exists s4,
     dft s (map (Rmult a) d1) count = Returns true s4 /\
     fourier_coef s4 !! k = Some (Cscale c1 a)).
Proof.
  intros Hf Hr1 Hk1 Hr2 Hk2.
  destruct (dft_cell_lookup _ _ _ _ _ _ Hr1 Hk1) as (Hc & Hd1 & Hk & ->).
  destruct (dft_cell_lookup _ _ _ _ _ _ Hr2 Hk2) as (_ & Hd2 & _ & ->).
  assert (0 < size_ s) as Hn by lia.
  rewrite Hf, !dft_cell_fresh by exact Hn.
  split.
  - eexists. split; [apply dft_accepts; [exact Hc|rewrite length_zip_with; lia]|].
    unfold fourier_coef. simpl.
    rewrite list_lookup_fmap, lookup_seq_lt by exact Hk. simpl.
    rewrite Hf, dft_cell_fresh by exact Hn. f_equal.
    unfold direct_sum.
    rewrite (weighted_sum_add _ (take (size_ s) d1) (take (size_ s) d2)).
    + unfold Cadd. simpl. f_equal; ring.
    + intros j Hj. rewrite !lookup_total_take_lt by exact Hj.
      destruct (lookup_lt_is_Some_2 d1 j ltac:(lia)) as [x Hx].
      destruct (lookup_lt_is_Some_2 d2 j ltac:(lia)) as [y Hy].
      rewrite !list_lookup_total_alt, lookup_zip_with, Hx, Hy. reflexivity.
  - eexists. split; [apply dft_accepts; [exact Hc|rewrite length_map; lia]|].
    unfold fourier_coef. simpl.
    rewrite list_lookup_fmap, lookup_seq_lt by exact Hk. simpl.
    rewrite Hf, dft_cell_fresh by exact Hn. f_equal.
    unfold direct_sum.
    rewrite (weighted_sum_scale _ (take (size_ s) d1) _ a).
    + unfold Cscale. simpl. f_equal; ring.
    + intros j Hj. rewrite !lookup_total_take_lt by exact Hj.
      destruct (lookup_lt_is_Some_2 d1 j ltac:(lia)) as [x Hx].
      rewrite !list_lookup_total_alt, list_lookup_fmap, Hx. reflexivity.
Qed.

Lemma dft_linear_witness :
  fouriers_ (mkFourier [] [] [] 1) = [] /\
  dft (mkFourier [] [] [] 1) [3]%R 1
  = Returns true (mkFourier [] [dft_cell 1 [3]%R [] 0] [3]%R 1) /\
  fourier_coef (mkFourier [] [dft_cell 1 [3]%R [] 0] [3]%R 1) !! 0
  = Some (dft_cell 1 [3]%R [] 0) /\
  dft (mkFourier [] [] [] 1) [4]%R 1
  = Returns true (mkFourier [] [dft_cell 1 [4]%R [] 0] [4]%R 1) /\
  fourier_coef (mkFourier [] [dft_cell 1 [4]%R [] 0] [4]%R 1) !! 0
  = Some (dft_cell 1 [4]%R [] 0) /\
  (exists s3,
     dft (mkFourier [] [] [] 1) (zip_with Rplus [3]%R [4]%R) 1 = Returns true s3 /\
     fourier_coef s3 !! 0
     = Some (Cadd (dft_cell 1 [3]%R [] 0) (dft_cell 1 [4]%R [] 0))) /\
  (exists s4,
     dft (mkFourier [] [] [] 1) (map (Rmult 2) [3]%R) 1 = Returns true s4 /\
     fourier_coef s4 !! 0 = Some (Cscale (dft_cell 1 [3]%R [] 0) 2)).
Proof.
  assert (H1 : dft (mkFourier [] [] [] 1) [3]%R 1
               = Returns true (mkFourier [] [dft_cell 1 [3]%R [] 0] [3]%R 1)).
  { rewrite dft_accepts by (simpl; lia). reflexivity. }
  assert (H2 : dft (mkFourier [] [] [] 1) [4]%R 1
               = Returns true (mkFourier [] [dft_cell 1 [4]%R [] 0] [4]%R 1)).
  { rewrite dft_accepts by (simpl; lia). reflexivity. }
  split; [reflexivity|]. split; [exact H1|]. split; [reflexivity|].
  split; [exact H2|]. split; [reflexivity|].
  exact (dft_linear (mkFourier [] [] [] 1) [3]%R [4]%R 2 1 0 _ _ _ _
           eq_refl H1 eq_refl H2 eq_refl).
Defined.

(** ** What the spectra say about a coefficient *)

(** X9: [power_spectrums()[k]] is the squared norm of coefficient [k], that
    is [real^2 + imag^2], without a square root, and is not negative. *)
Theorem power_is_squared_norm (s : Fourier) (k : nat) (c : complex) :
  fourier_coef s !! k = Some c ->
  power_spectrums s !! k = Some (real c * real c + imag c * imag c)%R /\
  (0 <= real c * real c + imag c * imag c)%R.
Proof.
  unfold fourier_coef. intros Hc.
  assert (0 <= real c * real c + imag c * imag c)%R as Hpos by nra.
  split; [|exact Hpos].
  rewrite power_spectrums_eq, list_lookup_fmap, Hc. simpl.
  unfold Cabs. rewrite sqrt_sqrt by exact Hpos. reflexivity.
Qed.

Lemma power_is_squared_norm_witness :
  fourier_coef (mkFourier [] [Cx 3 4] [] 1) !! 0 = Some (Cx 3 4) /\
  power_spectrums (mkFourier [] [Cx 3 4] [] 1) !! 0
  = Some (real (Cx 3 4) * real (Cx 3 4) + imag (Cx 3 4) * imag (Cx 3 4))%R /\
  (0 <= real (Cx 3 4) * real (Cx 3 4) + imag (Cx 3 4) * imag (Cx 3 4))%R.
Proof.
  split; [reflexivity|].
  apply (power_is_squared_norm (mkFourier [] [Cx 3 4] [] 1) 0 (Cx 3 4)).
  reflexivity.
Defined.

(** The norm of a pair with a non-zero first part. *)
Lemma norm_factor (x y : R) :
  x <> 0%R ->
  sqrt (x * x + y * y) = (Rabs x * sqrt (1 + (y / x)²))%R.
Proof.
  intros Hx.
  replace (x * x + y * y)%R with (x² * (1 + (y / x)²))%R
    by (unfold Rsqr; field; exact Hx).
  rewrite sqrt_mult.
  - rewrite sqrt_Rsqr_abs. reflexivity.
  - apply Rle_0_sqr.
  - pose proof (Rle_0_sqr (y / x)). lra.
Qed.

(** Norm and argument give the two parts back. *)
Lemma polar_parts (c : complex) :
  real c = (Cabs c * cos (Carg c))%R /\ imag c = (Cabs c * sin (Carg c))%R.
Proof.
  destruct c as [x y]. unfold Cabs, Carg, atan2. simpl.
  assert (Hs : forall t : R, (0 < sqrt (1 + t²))%R).
  { intros t. apply sqrt_lt_R0. pose proof (Rle_0_sqr t). lra. }
  destruct (Rlt_dec 0 x) as [Hx|Hx].
  - rewrite norm_factor by lra. rewrite Rabs_right by lra.
    rewrite cos_atan, sin_atan. specialize (Hs (y / x)%R).
    split; field; lra.
  - destruct (Rlt_dec x 0) as [Hx'|Hx'].
    + rewrite norm_factor by lra. rewrite Rabs_left by lra.
      specialize (Hs (y / x)%R).
      destruct (Rle_dec 0 y) as [Hy|Hy].
      * rewrite neg_cos, neg_sin, cos_atan, sin_atan. split; field; lra.
      * rewrite cos_minus, sin_minus, cos_PI, sin_PI, cos_atan, sin_atan.
        split; field; lra.
    + assert (x = 0%R) as -> by lra.
      replace (0 * 0 + y * y)%R with (y * y)%R by ring.
      destruct (Rlt_dec 0 y) as [Hy|Hy].
      * rewrite sqrt_square by lra. rewrite cos_PI2, sin_PI2. split; ring.
      * destruct (Rlt_dec y 0) as [Hy'|Hy'].
        -- replace (y * y)%R with ((- y) * (- y))%R by ring.
           rewrite sqrt_square by lra.
           rewrite cos_neg, sin_neg, cos_PI2, sin_PI2. split; ring.
        -- assert (y = 0%R) as -> by lra.
           rewrite Rmult_0_l, sqrt_0. split; ring.
Qed.

(** X10: [amplifiers()] and [angles()] together give every coefficient back:
    coefficient [k] is [amplifiers()[k] * (cos(angles()[k]) + i
    sin(angles()[k]))].  Stated over the reals. *)
Theorem polar_round_trip (s : Fourier) (k : nat) (c : complex) :
  fourier_coef s !! k = Some c ->
  exists a p,
    amplifiers s !! k = Some a /\
    angles s !! k = Some p /\
    c = Cx (a * cos p) (a * sin p).
Proof.
  unfold fourier_coef. intros Hc.
  exists (Cabs c), (Carg c).
  rewrite amplifiers_eq, angles_eq, !list_lookup_fmap, Hc. simpl.
  split; [reflexivity|]. split; [reflexivity|].
  destruct (polar_parts c) as [Hre Him].
  destruct c as [x y]. simpl in Hre, Him. f_equal; assumption.
Qed.

Lemma polar_round_trip_witness :
  fourier_coef (mkFourier [] [Cx (-3) 4] [] 1) !! 0 = Some (Cx (-3) 4) /\
  exists a p,
    amplifiers (mkFourier [] [Cx (-3) 4] [] 1) !! 0 = Some a /\
    angles (mkFourier [] [Cx (-3) 4] [] 1) !! 0 = Some p /\
    Cx (-3) 4 = Cx (a * cos p) (a * sin p).
Proof.
  split; [reflexivity|].
  apply (polar_round_trip (mkFourier [] [Cx (-3) 4] [] 1) 0 (Cx (-3) 4)).
  reflexivity.
Defined.

(** ** The matrix of the direct transform and the rotation table *)

Lemma rotor_matrix_length (n : nat) : length (rotor_matrix n) = n * n.
Proof.
  unfold rotor_matrix.
  apply (for_loop_inv (fun _ m => length m = n * n)); [apply length_replicate|].
  intros k acc _ Hacc.
  apply (for_loop_inv (fun _ m => length m = n * n)); [exact Hacc|].
  intros j acc' _ Hacc'. rewrite length_insert. exact Hacc'.
Qed.

Lemma rotor_entry_sym (n k j : nat) : rotor_entry n k j = rotor_entry n j k.
Proof.
  unfold rotor_entry.
  replace (2 * pi_d / INR n * INR k * INR j)%R
    with (2 * pi_d / INR n * INR j * INR k)%R by ring.
  reflexivity.
Qed.

(** X11: over the reals, and with [size_ * size_] within the range of
    [size_t], the matrix [dft] builds has [size_ * size_] entries; it is
    symmetric, every entry lies on the unit circle, its row 0 is all
    [1 + 0i], and its row 1 is the rotation table the constructor built
    (what [rotors()] returns).  Rounding is not modelled: in binary64 the
    products [base_freq * k * n] and [base_freq * n * k] can round to
    different values, and [cos^2 + sin^2] is 1 only up to rounding. *)
Theorem rotor_matrix_shape (calc_size : nat -> nat) (requested : nat) :
  length (rotor_matrix (calc_size requested)) = calc_size requested * calc_size requested /\
  forall k j, k < calc_size requested -> j < calc_size requested ->
    exists w,
      rotor_matrix (calc_size requested) !! (k * calc_size requested + j) = Some w /\
      rotor_matrix (calc_size requested) !! (j * calc_size requested + k) = Some w /\
      (real w * real w + imag w * imag w = 1)%R /\
      (k = 0 -> w = Cx 1 0) /\
      (k = 1 -> rotors (Fourier_ctor calc_size requested) !! j = Some w).
Proof.
  split; [apply rotor_matrix_length|].
  intros k j Hk Hj. exists (rotor_entry (calc_size requested) k j).
  split; [apply rotor_matrix_lookup; assumption|].
  split; [rewrite rotor_entry_sym; apply rotor_matrix_lookup; assumption|].
  split; [|split].
  - unfold rotor_entry. simpl.
    pose proof (sin2_cos2 (2 * pi_d / INR (calc_size requested) * INR k * INR j)) as Hu.
    unfold Rsqr in Hu. lra.
  - intros ->. apply rotor_entry_row0.
  - intros ->. unfold rotors. simpl.
    rewrite calc_rotors_lookup by exact Hj.
    unfold rotor_entry. simpl. rewrite Rmult_1_r. reflexivity.
Qed.

(** ** What the policy is given *)

(** X12: whenever a client's [fft] call returns [true], on any engine state
    reachable from the constructor, the policy's [fft] was given a buffer of
    exactly [N = calc_size(requested)] samples (the first [N] cells of the
    caller's array) and the table of [N] rotation factors built at
    construction, and its result is what the engine then holds. *)
Theorem fft_policy_inputs (calc_size : nat -> nat)
    (pf : list R -> list complex -> list complex) (requested : nat)
    (s : Fourier) (data : list R) (count : nat) (s' : Fourier) :
  reachable calc_size pf requested s ->
  fft pf s data count = Returns true s' ->
  fourier_coef s'
  = pf (take (calc_size requested) data) (calc_rotors (calc_size requested) []) /\
  length (take (calc_size requested) data) = calc_size requested /\
  length (calc_rotors (calc_size requested) []) = calc_size requested.
Proof.
  intros Hreach Hr.
  destruct (reachable_shape _ _ _ _ Hreach) as (Hs & Hrot & _ & _).
  destruct (fft_true_inv _ _ _ _ _ Hr) as [Hc Hd].
  rewrite fft_accepts in Hr by assumption. injection Hr as <-.
  unfold fourier_coef. simpl. rewrite Hrot, Hs.
  split; [reflexivity|]. split; [|apply calc_rotors_length].
  rewrite length_take. lia.
Qed.

Lemma fft_policy_inputs_witness :
  reachable (fun n => n) (fun d _ => map (fun x => Cx x x) d) 1
    (Fourier_ctor (fun n => n) 1) /\
  fft (fun d _ => map (fun x => Cx x x) d) (Fourier_ctor (fun n => n) 1) [3; 8]%R 0
  = Returns true (mkFourier (calc_rotors 1 []) [Cx 3 3] [3]%R 1) /\
  fourier_coef (mkFourier (calc_rotors 1 []) [Cx 3 3] [3]%R 1)
  = map (fun x => Cx x x) (take 1 [3; 8]%R) /\
  length (take 1 [3; 8]%R) = 1 /\
  length (calc_rotors 1 []) = 1.
Proof.
  assert (H : fft (fun d _ => map (fun x => Cx x x) d)
                (Fourier_ctor (fun n => n) 1) [3; 8]%R 0
              = Returns true (mkFourier (calc_rotors 1 []) [Cx 3 3] [3]%R 1)).
  { rewrite fft_accepts by (simpl; lia). reflexivity. }
  split; [apply reach_ctor|]. split; [exact H|].
  exact (fft_policy_inputs (fun n => n) (fun d _ => map (fun x => Cx x x) d) 1
           _ _ _ _ (reach_ctor _ _ _) H).
Defined.
